(** * CityLink: reachability engine of [cityLink.c]

    Shallow embedding of [createRList], [createTransClosure] and [findPath],
    and of [readFromFile], [printTransClosure], [writeFile] and the route
    parsing of [main].

    Representation.  The C program stores a list of pairs as a flat [int]
    array: pair number [k] sits at indices [2k] (start city) and [2k+1]
    (target city), and [sizeOfR] is twice the number of pairs.  We model the
    array directly as a list of pairs of integers; [sizeOfR = 2 * length R].
    Memory allocation ([malloc]/[realloc]) is assumed to succeed, except
    where noted. *)

From Stdlib Require Import String Ascii DecimalString.
From Stdlib Require Import ZArith List Bool Lia Relations Sorted.
Import ListNotations.
Open Scope Z_scope.

Definition pair := (Z * Z)%type.

Definition pair_eqb (p q : pair) : bool :=
  (fst p =? fst q) && (snd p =? snd q).

(** ** createRList *)

Definition zrange (n : Z) : list Z := map Z.of_nat (seq 0 (Z.to_nat n)).

(** [A[i][j]] on an [N x N] matrix stored row by row. *)
Definition get (A : list (list Z)) (i j : Z) : Z :=
  nth (Z.to_nat j) (nth (Z.to_nat i) A []) 0.

(** The pairs written by the row-major double loop, in writing order. *)
Definition rlist_cells (A : list (list Z)) (N : Z) : list pair :=
  flat_map (fun i =>
    flat_map (fun j => if get A i j =? 1 then [(i, j)] else []) (zrange N))
  (zrange N).

(** [createRList A N]: the scan writes its pairs into a buffer allocated with
    [malloc(sizeof(int) * 2*(N*N-N))], i.e. room for [N*N-N] pairs, and only
    afterwards shrinks it with [realloc].  Writing a pair past that buffer is
    an out-of-bounds heap write; it is modelled as [None]. *)
Definition createRList (A : list (list Z)) (N : Z) : option (list pair) :=
  let cells := rlist_cells A N in
  if Z.of_nat (length cells) <=? N * N - N then Some cells else None.

(** ** createTransClosure *)

(** Body of the innermost loop, for the pair [(u,v) = R[i],R[i+1]] and the
    pair [(y,w) = R[j],R[j+1]]; the state is the current array and the flag
    [changed]. *)
Definition step (u v y w : Z) (st : list pair * bool) : list pair * bool :=
  let '(R, changed) := st in
  if (y =? v) && negb (u =? w) then
    let alreadyExists :=
      if negb (u =? y) && negb (v =? w)           (* "Don't check itself" *)
      then existsb (pair_eqb (u, w)) R           (* check for duplicates *)
      else false in
    if alreadyExists then (R, changed)
    else (R ++ [(u, w)], true)                   (* realloc, append (u,w) *)
  else (R, changed).

(** The [j] loop for a fixed [(u,v)].  The loops only read indices below
    [initialSize], and pairs are only ever appended, so the pairs read are
    those of the array as it was at the start of the pass ([R0]). *)
Definition inner (R0 : list pair) (uv : pair) (st : list pair * bool)
  : list pair * bool :=
  fold_left (fun st yw => step (fst uv) (snd uv) (fst yw) (snd yw) st) R0 st.

(** One iteration of [while(changed)]: [changed = false], then the [i] loop. *)
Definition pass (R0 : list pair) : list pair * bool :=
  fold_left (fun st uv => inner R0 uv st) R0 (R0, false).

(** [while(changed)], started with [changed = true]; [fuel] bounds the number
    of iterations, and [None] means the fuel ran out. *)
Fixpoint closure_loop (fuel : nat) (R : list pair) : option (list pair) :=
  match fuel with
  | O => None
  | S f =>
      let '(R', changed) := pass R in
      if changed then closure_loop f R' else Some R'
  end.

(** [createTransClosure R] terminates successfully with result [R'] when
    [closure_loop fuel R = Some R'] for some [fuel]. *)
Definition createTransClosure (fuel : nat) (R : list pair) : option (list pair) :=
  closure_loop fuel R.

(** ** findPath *)

Inductive outcome : Type :=
| Unreachable
| PathFound (p : list Z).

(** First loop after the reachability check: the first pair leaving
    [startCity], scanned from the start of [R]. *)
Fixpoint first_hop (R : list pair) (s : Z) : option Z :=
  match R with
  | [] => None
  | (a, b) :: R' => if a =? s then Some b else first_hop R' s
  end.

(** One run of the [for] loop inside [while(!pathComplete)]; [cur] is the
    variable [startCity].  Returns the new path, the new [startCity] and
    [pathComplete]. *)
Fixpoint scan (R : list pair) (t : Z) (Path : list Z) (cur : Z)
  : list Z * Z * bool :=
  match R with
  | [] => (Path, cur, false)
  | (a, b) :: R' =>
      if (a =? cur) && negb (existsb (Z.eqb b) Path) then
        let Path' := Path ++ [cur] in
        if b =? t then (Path' ++ [t], b, true)
        else scan R' t Path' b
      else scan R' t Path cur
  end.

(** [while(!pathComplete)]; [None] when the fuel runs out. *)
Fixpoint walk (fuel : nat) (R : list pair) (t : Z) (Path : list Z) (cur : Z)
  : option (list Z) :=
  match fuel with
  | O => None
  | S f =>
      let '(Path', cur', complete) := scan R t Path cur in
      if complete then Some Path' else walk f R t Path' cur'
  end.

(** [findPath R sizeOfR startCity targetCity].  [Unreachable] is the
    [return false] after "No Path Exists!"; [PathFound p] is the printed path
    followed by [return true]; [None] means that [fuel] iterations of the
    [while] loop did not complete the path. *)
Definition findPath (fuel : nat) (R : list pair) (s t : Z) : option outcome :=
  if existsb (pair_eqb (s, t)) R then
    match first_hop R s with
    | Some n1 =>
        if n1 =? t then Some (PathFound [s; t])
        else option_map PathFound (walk fuel R t [s] n1)
    | None => option_map PathFound (walk fuel R t [] s)
    end
  else Some Unreachable.

(** ** readFromFile *)

(** [fgetc]: the next byte of the file, or [EOF = -1] once it is exhausted.
    The file contents are modelled as the list of its bytes. *)
Definition fgetc (bs : list Z) : Z * list Z :=
  match bs with
  | [] => (-1, [])
  | c :: rest => (c, rest)
  end.

(** One cell: [k = fgetc(fp); A[i][j] = k-'0'; fgetc(fp);]. *)
Definition read_cell (bs : list Z) : Z * list Z :=
  let '(k, bs1) := fgetc bs in
  let '(_, bs2) := fgetc bs1 in
  (k - 48, bs2).

Fixpoint read_row (n : nat) (bs : list Z) : list Z * list Z :=
  match n with
  | O => ([], bs)
  | S n' =>
      let '(x, bs1) := read_cell bs in
      let '(row, bs2) := read_row n' bs1 in
      (x :: row, bs2)
  end.

Fixpoint read_rows (m n : nat) (bs : list Z) : list (list Z) * list Z :=
  match m with
  | O => ([], bs)
  | S m' =>
      let '(row, bs1) := read_row n bs in
      let '(rows, bs2) := read_rows m' n bs1 in
      (row :: rows, bs2)
  end.

(** [readFromFile(&A, ivalue, &N)]: [None] when [fopen] fails ([file =
    None]); otherwise [N] is the first byte minus ['0'], one byte is skipped,
    and the [N x N] cells are read row by row.  The allocations of [A] are
    assumed to succeed; with [N <= 0] the loops read nothing. *)
Definition readFromFile (file : option (list Z)) : option (Z * list (list Z)) :=
  match file with
  | None => None
  | Some bs =>
      let '(c, bs1) := fgetc bs in
      let N := c - 48 in
      let '(_, bs2) := fgetc bs1 in
      Some (N, fst (read_rows (Z.to_nat N) (Z.to_nat N) bs2))
  end.

(** ** printTransClosure and writeFile *)

(** [printf("%d", x)]. *)
Definition dec (x : Z) : string := NilZero.string_of_int (Z.to_int x).

Definition nl : string := String "010"%char EmptyString.

(** The loop shared by [printTransClosure] and [writeFile] over the flat
    array [R[0..sizeOfR-1]], from index [i]: a newline before an even index,
    [" -> "] before an odd one, nothing before index 0. *)
Fixpoint table_body (i : nat) (xs : list Z) : string :=
  match xs with
  | [] => EmptyString
  | x :: xs' =>
      ((if Nat.even i && negb (Nat.eqb i 0) then nl
        else if negb (Nat.eqb i 0) then " -> " else EmptyString)
       ++ dec x ++ table_body (S i) xs')%string
  end.

(** The flat [int] array holding the pairs. *)
Definition flat (R : list pair) : list Z :=
  flat_map (fun p => [fst p; snd p]) R.

(** Standard output of [printTransClosure(R, sizeOfR)]. *)
Definition printTransClosure (R : list pair) : string :=
  (nl ++ "R* Table" ++ nl ++ table_body 0 (flat R) ++ nl)%string.

(** [writeFile(R, sizeOfR, inFileName)]: the name of the file written and its
    contents ([None] when [fopen] fails, [fopen_ok = false]); the [malloc] of
    the name is assumed to succeed. *)
Definition writeFile (R : list pair) (inFileName : string) (fopen_ok : bool)
  : option (string * string) :=
  let outFileName := ("out-" ++ inFileName)%string in
  if fopen_ok then
    Some (outFileName,
          ("R* Table" ++ nl ++ table_body 0 (flat R) ++ nl ++ nl)%string)
  else None.

(** ** main: the route option *)

(** [startCity = rvalue[0]-'0'; targetCity = rvalue[2]-'0';] on the bytes of
    the argument of [-r]. *)
Definition parse_route (rvalue : list Z) : Z * Z :=
  (nth 0 rvalue 0 - 48, nth 2 rvalue 0 - 48).

(** ** Examples (spec section 8) *)

Example ex1_rlist :
  createRList [[0;1;0];[0;0;1];[0;0;0]] 3 = Some [(0,1);(1,2)].
Proof. reflexivity. Qed.

Example ex1_closure :
  createTransClosure 5 [(0,1);(1,2)] = Some [(0,1);(1,2);(0,2)].
Proof. reflexivity. Qed.

Example ex2_path :
  findPath 5 [(0,1);(1,2);(0,2)] 0 2 = Some (PathFound [0;1;2]).
Proof. reflexivity. Qed.

Example ex3_empty : createTransClosure 5 [] = Some [] /\ findPath 5 [] 0 1 = Some Unreachable.
Proof. split; reflexivity. Qed.

Example ex4_cycle :
  createTransClosure 5 [(0,1);(1,2);(2,0)] = Some [(0,1);(1,2);(2,0);(0,2);(1,0);(2,1)].
Proof. reflexivity. Qed.

(** ** Generic facts on the passes *)

Section Folds.
Variable X : Type.
Variable f : X -> list pair * bool -> list pair * bool.

(** [f] only reports "no change" when it started without a change and
    left the array alone. *)
Hypothesis f_keeps : forall x R b R',
  f x (R, b) = (R', false) -> b = false /\ R' = R.

Lemma fold_false : forall L R b R',
  fold_left (fun st x => f x st) L (R, b) = (R', false) ->
  b = false /\ R' = R /\ forall x, In x L -> f x (R, false) = (R, false).
Proof.
  induction L as [|x L IH]; simpl; intros R b R' H.
  - inversion H; subst; repeat split; intros ? [].
  - destruct (f x (R, b)) as [R1 b1] eqn:E.
    destruct (IH _ _ _ H) as [-> [-> Hall]].
    destruct (f_keeps _ _ _ _ E) as [-> ->].
    repeat split; auto.
    intros y [<- | Hy]; auto.
Qed.

Hypothesis f_mono : forall x st, snd st = true -> snd (f x st) = true.

Lemma fold_true_stays : forall L st,
  snd st = true -> snd (fold_left (fun st x => f x st) L st) = true.
Proof.
  induction L; simpl; auto.
Qed.

Lemma fold_true : forall L st x,
  In x L -> (forall st', snd (f x st') = true) ->
  snd (fold_left (fun st x => f x st) L st) = true.
Proof.
  induction L as [|y L IH]; simpl; intros st x Hin Hx; [contradiction|].
  destruct Hin as [<- | Hin].
  - apply fold_true_stays; auto.
  - eauto.
Qed.

(** Invariant preserved by every [f x]. *)
Lemma fold_inv : forall (I : list pair * bool -> Prop) L st,
  (forall x st, In x L -> I st -> I (f x st)) ->
  I st -> I (fold_left (fun st x => f x st) L st).
Proof.
  intros I L; induction L; simpl; intros st Hf Hst; auto.
Qed.
End Folds.

Lemma step_keeps : forall (yw : pair) u v R b R',
  step u v (fst yw) (snd yw) (R, b) = (R', false) -> b = false /\ R' = R.
Proof.
  intros [y w] u v R b R'; unfold step; simpl.
  destruct ((y =? v) && negb (u =? w)).
  - destruct (if negb (u =? y) && negb (v =? w) then _ else false).
    + intro H; inversion H; auto.
    + discriminate.
  - intro H; inversion H; auto.
Qed.

Lemma inner_keeps : forall R0 uv R b R',
  inner R0 uv (R, b) = (R', false) -> b = false /\ R' = R.
Proof.
  intros R0 [u v] R b R' H; unfold inner in H.
  apply (fold_false _ (fun (yw : pair) st => step u v (fst yw) (snd yw) st)) in H.
  - tauto.
  - intros; eapply step_keeps; eauto.
Qed.

Lemma step_mono : forall u v y w st, snd st = true -> snd (step u v y w st) = true.
Proof.
  intros u v y w [R b]; simpl; intros ->; unfold step.
  destruct ((y =? v) && negb (u =? w));
    [destruct (if negb (u =? y) && negb (v =? w) then _ else false)|];
    reflexivity.
Qed.

Lemma inner_mono : forall R0 uv st, snd st = true -> snd (inner R0 uv st) = true.
Proof.
  intros; unfold inner.
  apply (fold_true_stays _ (fun (yw : pair) st => step (fst uv) (snd uv) (fst yw) (snd yw) st)); auto.
  intros; apply step_mono; auto.
Qed.

(** A pass that reports no change leaves the array unchanged, and every
    individual step of it left the array unchanged. *)
Lemma pass_false : forall R R',
  pass R = (R', false) ->
  R' = R /\ forall u v y w, In (u, v) R -> In (y, w) R ->
    step u v y w (R, false) = (R, false).
Proof.
  intros R R' H; unfold pass in H.
  apply (fold_false _ (fun (uv : pair) st => inner R uv st)) in H;
    [|intros; eapply inner_keeps; eauto].
  destruct H as [_ [-> Hall]]; split; auto.
  intros u v y w Huv Hyw.
  specialize (Hall _ Huv); unfold inner in Hall; simpl in Hall.
  apply (fold_false _ (fun (yw : pair) st => step u v (fst yw) (snd yw) st)) in Hall;
    [|intros; eapply step_keeps; eauto].
  destruct Hall as [_ [_ Hall]]; exact (Hall (y, w) Hyw).
Qed.

Lemma pair_eqb_true : forall p q, pair_eqb p q = true <-> p = q.
Proof.
  intros [a b] [c d]; unfold pair_eqb; simpl.
  rewrite andb_true_iff, !Z.eqb_eq; split.
  - intros [-> ->]; reflexivity.
  - intro H; inversion H; auto.
Qed.

Lemma existsb_pair_In : forall p R, existsb (pair_eqb p) R = true <-> In p R.
Proof.
  intros p R; rewrite existsb_exists; split.
  - intros [q [Hq Heq]]; apply pair_eqb_true in Heq; subst; auto.
  - intro H; exists p; split; auto; apply pair_eqb_true; reflexivity.
Qed.

Definition nonself (p : pair) : Prop := fst p <> snd p.

(** Every step only appends pairs [(u,w)] with [u <> w]. *)
Lemma step_ext : forall u v y w R b,
  exists added, fst (step u v y w (R, b)) = R ++ added /\ Forall nonself added.
Proof.
  intros; unfold step.
  destruct ((y =? v) && negb (u =? w)) eqn:E.
  - destruct (if negb (u =? y) && negb (v =? w) then _ else false).
    + exists []; rewrite app_nil_r; auto.
    + exists [(u, w)]; split; auto.
      apply andb_true_iff in E as [_ E]; apply negb_true_iff, Z.eqb_neq in E.
      constructor; auto.
  - exists []; rewrite app_nil_r; auto.
Qed.

Lemma pass_ext : forall R,
  exists added, fst (pass R) = R ++ added /\ Forall nonself added.
Proof.
  intro R; unfold pass.
  apply (fold_inv _ (fun (uv : pair) st => inner R uv st)
           (fun st => exists added, fst st = R ++ added /\ Forall nonself added)).
  - intros uv [R1 b1] _ [added [H1 Hadd]]; simpl in H1; subst R1.
    unfold inner.
    apply (fold_inv _ (fun (yw : pair) st => step (fst uv) (snd uv) (fst yw) (snd yw) st)
             (fun st => exists added, fst st = R ++ added /\ Forall nonself added)).
    + intros yw [R2 b2] _ [a2 [H2 Ha2]]; simpl in H2; subst R2.
      destruct (step_ext (fst uv) (snd uv) (fst yw) (snd yw) (R ++ a2) b2)
        as [a3 [H3 Ha3]].
      exists (a2 ++ a3); rewrite H3, app_assoc; split; auto.
      apply Forall_app; auto.
    + exists added; auto.
  - exists []; rewrite app_nil_r; auto.
Qed.

Lemma closure_loop_ext : forall fuel R R',
  closure_loop fuel R = Some R' ->
  exists added, R' = R ++ added /\ Forall nonself added.
Proof.
  induction fuel as [|f IH]; simpl; intros R R' H; [discriminate|].
  destruct (pass_ext R) as [a1 [H1 Ha1]].
  destruct (pass R) as [R1 b] eqn:E; simpl in H1; subst R1.
  destruct b.
  - destruct (IH _ _ H) as [a2 [-> Ha2]].
    exists (a1 ++ a2); rewrite app_assoc; split; auto.
    apply Forall_app; auto.
  - inversion H; subst; eauto.
Qed.

(** The array returned by the loop is a fixed point of a pass. *)
Lemma closure_loop_fix : forall fuel R R',
  closure_loop fuel R = Some R' -> pass R' = (R', false).
Proof.
  induction fuel as [|f IH]; simpl; intros R R' H; [discriminate|].
  destruct (pass R) as [R1 b] eqn:E.
  destruct b; eauto.
  inversion H; subst.
  destruct (pass_false _ _ E) as [-> _]; auto.
Qed.

(** A step that fires ([y = v], [u <> w]) but changes nothing found the
    duplicate check enabled and [(u,w)] already present. *)
Lemma step_nochange : forall u v w R,
  u <> w -> step u v v w (R, false) = (R, false) ->
  u <> v /\ v <> w /\ In (u, w) R.
Proof.
  intros u v w R Huw H; unfold step in H.
  rewrite Z.eqb_refl in H; apply Z.eqb_neq in Huw; rewrite Huw in H; simpl in H.
  destruct (u =? v) eqn:Euv, (v =? w) eqn:Evw; simpl in H;
    try (apply (f_equal fst) in H; simpl in H;
         apply (f_equal (@length _)) in H; rewrite length_app in H; simpl in H; lia).
  destruct (existsb (pair_eqb (u, w)) R) eqn:Ex.
  - apply existsb_pair_In in Ex; apply Z.eqb_neq in Euv, Evw; auto.
  - apply (f_equal fst) in H; simpl in H;
      apply (f_equal (@length _)) in H; rewrite length_app in H; simpl in H; lia.
Qed.

(** Consequences of being a fixed point. *)
Lemma fix_props : forall R, pass R = (R, false) ->
  forall a b c, In (a, b) R -> In (b, c) R -> a <> c ->
  a <> b /\ b <> c /\ In (a, c) R.
Proof.
  intros R HR a b c Hab Hbc Hac.
  destruct (pass_false _ _ HR) as [_ Hall].
  apply step_nochange; auto.
Qed.

(** No pair [(u,v)], [(v,w)] of the array with [u <> w] has [u = v] or
    [v = w]: then the duplicate check of every firing step is enabled. *)
Definition good (R : list pair) : Prop :=
  forall a b c, In (a, b) R -> In (b, c) R -> a <> c -> a <> b /\ b <> c.

Lemma good_incl : forall R R', incl R R' -> good R' -> good R.
Proof. unfold good; intros R R' Hi Hg a b c H1 H2; apply Hg; auto. Qed.

Lemma fix_good : forall R, pass R = (R, false) -> good R.
Proof.
  intros R HR a b c H1 H2 H3; destruct (fix_props _ HR a b c H1 H2 H3); tauto.
Qed.

Lemma nodup_snoc : forall (x : pair) R, NoDup R -> ~ In x R -> NoDup (R ++ [x]).
Proof.
  intros x R HR Hx; apply NoDup_app; auto.
  - constructor; auto; constructor.
  - intros a Ha [<- | []]; auto.
Qed.

Lemma pass_nodup : forall R, good R -> NoDup R -> NoDup (fst (pass R)).
Proof.
  intros R Hg Hnd; unfold pass.
  apply (fold_inv _ (fun (uv : pair) st => inner R uv st) (fun st => NoDup (fst st)));
    [|exact Hnd].
  intros [u v] st1 Huv Hst1; unfold inner; simpl.
  apply (fold_inv _ (fun (yw : pair) st => step u v (fst yw) (snd yw) st)
           (fun st => NoDup (fst st))); [|exact Hst1].
  intros [y w] [R2 b2] Hyw Hnd2; simpl in *; unfold step.
  destruct ((y =? v) && negb (u =? w)) eqn:E; [|exact Hnd2].
  apply andb_true_iff in E as [Eyv Euw].
  apply Z.eqb_eq in Eyv; subst y; apply negb_true_iff, Z.eqb_neq in Euw.
  destruct (Hg u v w Huv Hyw Euw) as [Huv' Hvw'].
  apply Z.eqb_neq in Huv', Hvw'; rewrite Huv', Hvw'; simpl.
  destruct (existsb (pair_eqb (u, w)) R2) eqn:Ex; [exact Hnd2|].
  apply nodup_snoc; auto.
  intro Hin; apply existsb_pair_In in Hin; congruence.
Qed.

(** A self-loop [(a,a)] next to a pair [(a,c)], [c <> a], makes every pass
    append [(a,c)] again without checking for duplicates. *)
Lemma pass_selfloop_changes : forall R a c,
  In (a, a) R -> In (a, c) R -> a <> c -> snd (pass R) = true.
Proof.
  intros R a c Haa Hac Hne; unfold pass.
  apply (fold_true _ (fun (uv : pair) st => inner R uv st)) with (x := (a, a)); auto.
  - intros; apply inner_mono; auto.
  - intro st; unfold inner; simpl.
    apply (fold_true _ (fun (yw : pair) st => step a a (fst yw) (snd yw) st))
      with (x := (a, c)); auto.
    + intros; apply step_mono; auto.
    + intros [R' b']; simpl; unfold step.
      rewrite Z.eqb_refl; apply Z.eqb_neq in Hne; rewrite Hne; reflexivity.
Qed.

Lemma closure_loop_selfloop_diverges : forall fuel R a c,
  In (a, a) R -> In (a, c) R -> a <> c -> closure_loop fuel R = None.
Proof.
  induction fuel as [|f IH]; simpl; intros R a c Haa Hac Hne; [reflexivity|].
  pose proof (pass_selfloop_changes _ _ _ Haa Hac Hne) as Hch.
  destruct (pass_ext R) as [added [Hext _]].
  destruct (pass R) as [R1 b]; simpl in *; subst.
  apply (IH _ a c); auto; apply in_or_app; auto.
Qed.

Lemma closure_loop_nodup : forall fuel R R',
  closure_loop fuel R = Some R' -> good R' -> NoDup R -> NoDup R'.
Proof.
  induction fuel as [|f IH]; simpl; intros R R' H Hg Hnd; [discriminate|].
  destruct (pass_ext R) as [a1 [H1 _]].
  pose proof (pass_nodup R) as Hp.
  destruct (pass R) as [R1 b] eqn:E; simpl in H1, Hp; subst R1.
  destruct b.
  - destruct (closure_loop_ext _ _ _ H) as [a2 [-> _]].
    apply (IH _ _ H Hg).
    apply Hp; auto.
    apply (good_incl _ _ (incl_appl _ (incl_appl _ (incl_refl _))) Hg).
  - inversion H; subst.
    destruct (pass_false _ _ E) as [-> _]; auto.
Qed.

(** ** Claims on createTransClosure *)

(** C1 (as amended): when [createTransClosure] terminates, its result is
    closed under composition of two pairs whose outer ends differ: for all
    [a, b, c] with [a <> c], if [(a,b)] and [(b,c)] are in the result, so is
    [(a,c)]. *)
Theorem closure_transitive_distinct : forall fuel E R',
  createTransClosure fuel E = Some R' ->
  forall a b c, In (a, b) R' -> In (b, c) R' -> a <> c -> In (a, c) R'.
Proof.
  intros fuel E R' H a b c Hab Hbc Hac.
  apply (fix_props R' (closure_loop_fix _ _ _ H) a b c Hab Hbc Hac).
Qed.

Lemma closure_transitive_distinct_witness :
  createTransClosure 5 [(0,1);(1,2)] = Some [(0,1);(1,2);(0,2)] /\
  In (0,2) [(0,1);(1,2);(0,2)].
Proof.
  split; [reflexivity|].
  apply (closure_transitive_distinct 5 [(0,1);(1,2)] _ eq_refl 0 1 2);
    simpl; auto; lia.
Defined.

(** C1 counterexample: on the 2-cycle [(0,1),(1,0)] the loop terminates with
    the input unchanged, which contains [(0,1)] and [(1,0)] but not [(0,0)]. *)
Lemma closure_transitive_counterexample :
  ~ (forall fuel E R', createTransClosure fuel E = Some R' ->
       forall a b c, In (a, b) R' -> In (b, c) R' -> In (a, c) R').
Proof.
  intro H.
  assert (Hc : createTransClosure 1 [(0,1);(1,0)] = Some [(0,1);(1,0)])
    by reflexivity.
  specialize (H _ _ _ Hc 0 1 0); simpl in H.
  destruct H as [H | [H | []]]; auto; discriminate.
Qed.

(** C2 (code bug): on the edge list [(0,0),(0,1)] (built by [createRList]
    from the matrix [[1,1],[0,0]]) the pass loop never ends: every pass
    appends [(0,1)] again, because the self-loop [(0,0)] disables the
    duplicate check, so [changed] is set on every pass. *)
Theorem closure_selfloop_nonterminating :
  createRList [[1;1];[0;0]] 2 = Some [(0,0);(0,1)] /\
  forall fuel, createTransClosure fuel [(0,0);(0,1)] = None.
Proof.
  split; [reflexivity|].
  intro fuel; apply (closure_loop_selfloop_diverges fuel _ 0 1); simpl; auto; lia.
Qed.

(** C3: when [createTransClosure] terminates on a duplicate-free list, the
    result contains no repeated pair. *)
Theorem closure_nodup : forall fuel E R',
  NoDup E -> createTransClosure fuel E = Some R' -> NoDup R'.
Proof.
  intros fuel E R' Hnd H.
  apply (closure_loop_nodup fuel E R' H); auto.
  apply fix_good, (closure_loop_fix fuel E), H.
Qed.

Lemma closure_nodup_witness : NoDup [(0,1);(1,2);(0,2)].
Proof.
  apply (closure_nodup 5 [(0,1);(1,2)]).
  - repeat constructor; simpl; intuition discriminate.
  - reflexivity.
Defined.

(** C4 (as amended): for pre-pass pairs [(u,v)] and [(y,w)] with [v = y],
    the step of the pass appends nothing when [u = w]; when [u <> w],
    [u <> v] and [v <> w], it appends [(u,w)] and sets [changed] exactly when
    [(u,w)] is not already in the current array, and otherwise leaves the
    state as it was. *)
Theorem step_append_rule : forall u v y w R changed, y = v ->
  (u = w -> step u v y w (R, changed) = (R, changed)) /\
  (u <> w -> u <> v -> v <> w ->
     (~ In (u, w) R -> step u v y w (R, changed) = (R ++ [(u, w)], true)) /\
     (In (u, w) R -> step u v y w (R, changed) = (R, changed))).
Proof.
  intros u v y w R changed ->; unfold step; rewrite Z.eqb_refl; simpl.
  split.
  - intros ->; rewrite Z.eqb_refl; reflexivity.
  - intros Huw Huv Hvw.
    apply Z.eqb_neq in Huw, Huv, Hvw; rewrite Huw, Huv, Hvw; simpl.
    split.
    + intro Hn; destruct (existsb (pair_eqb (u, w)) R) eqn:Ex; auto.
      apply existsb_pair_In in Ex; contradiction.
    + intro Hi; apply existsb_pair_In in Hi; rewrite Hi; reflexivity.
Qed.

Lemma step_append_rule_witness :
  step 0 1 1 2 ([(0,1);(1,2)], false) = ([(0,1);(1,2);(0,2)], true).
Proof.
  destruct (step_append_rule 0 1 1 2 [(0,1);(1,2)] false eq_refl) as [_ H].
  apply H; try lia.
  simpl; intuition discriminate.
Defined.

(** C4 counterexample: in the pass over [(0,1),(1,0)], the pairs [(0,1)] and
    [(1,0)] meet ([v = y = 1]), [(0,0)] is not in the array and [u = y],
    [v = w] do not both hold, yet nothing is appended. *)
Lemma step_append_rule_counterexample :
  pass [(0,1);(1,0)] = ([(0,1);(1,0)], false) /\
  ~ In (0,0) [(0,1);(1,0)] /\ ~ (0 = 1 /\ 1 = 0).
Proof.
  split; [reflexivity|]; split; [simpl; intuition discriminate | lia].
Qed.

(** C8: when [createTransClosure] terminates, every input pair is in the
    result. *)
Theorem closure_superset : forall fuel E R',
  createTransClosure fuel E = Some R' -> forall p, In p E -> In p R'.
Proof.
  intros fuel E R' H p Hp.
  destruct (closure_loop_ext _ _ _ H) as [added [-> _]].
  apply in_or_app; auto.
Qed.

Lemma closure_superset_witness : In (1,2) [(0,1);(1,2);(0,2)].
Proof.
  apply (closure_superset 5 [(0,1);(1,2)]); [reflexivity | simpl; auto].
Defined.

(** C10: the result of a terminating [createTransClosure] is the input
    followed by appended pairs, each with [from <> to]; hence a self-pair
    [(a,a)] is in the result exactly when it is in the input. *)
Theorem closure_no_new_selfloops : forall fuel E R',
  createTransClosure fuel E = Some R' ->
  (exists added, R' = E ++ added /\ Forall (fun p => fst p <> snd p) added) /\
  (forall a, In (a, a) R' <-> In (a, a) E).
Proof.
  intros fuel E R' H.
  destruct (closure_loop_ext _ _ _ H) as [added [-> Hadd]].
  split; [exists added; auto|].
  intro a; split.
  - intro Hin; apply in_app_or in Hin as [Hin | Hin]; auto.
    rewrite Forall_forall in Hadd; destruct (Hadd _ Hin); reflexivity.
  - intro; apply in_or_app; auto.
Qed.

Lemma closure_no_new_selfloops_witness :
  ~ In (0,0) [(0,1);(1,2);(2,0);(0,2);(1,0);(2,1)].
Proof.
  destruct (closure_no_new_selfloops 5 [(0,1);(1,2);(2,0)] _ eq_refl) as [_ H].
  rewrite (H 0); simpl; intuition discriminate.
Defined.

(** ** Facts on findPath *)

(** Consecutive nodes of a path are pairs of [R]. *)
Fixpoint chain (R : list pair) (p : list Z) : Prop :=
  match p with
  | x :: ((y :: _) as p') => In (x, y) R /\ chain R p'
  | _ => True
  end.

Lemma chain_snoc : forall R l x y,
  chain R (l ++ [x]) -> In (x, y) R -> chain R ((l ++ [x]) ++ [y]).
Proof.
  intros R l; induction l as [|a l IH]; simpl; intros x y Hc Hxy.
  - auto.
  - destruct l as [|b l]; simpl in *.
    + tauto.
    + destruct Hc as [Hab Hc]; split; auto.
      specialize (IH x y Hc Hxy); simpl in IH; exact IH.
Qed.

Lemma first_hop_In : forall R s n, first_hop R s = Some n -> In (s, n) R.
Proof.
  induction R as [|[a b] R IH]; simpl; intros s n H; [discriminate|].
  destruct (a =? s) eqn:E; auto.
  apply Z.eqb_eq in E; inversion H; subst; auto.
Qed.

Lemma first_hop_None : forall R s x, first_hop R s = None -> ~ In (s, x) R.
Proof.
  induction R as [|[a b] R IH]; simpl; intros s x H; [auto|].
  destruct (a =? s) eqn:E; [discriminate|].
  apply Z.eqb_neq in E; intros [Hq | Hin]; [inversion Hq; congruence|].
  eapply IH; eauto.
Qed.

Section Walk.
Variable R : list pair.
Variables s t : Z.

(** [Path] followed by the current node [cur] is a walk from [s] along
    pairs of [R], without repetition when [R] has no self-pair. *)
Definition walk_inv (Path : list Z) (cur : Z) : Prop :=
  hd_error Path = Some s /\ chain R (Path ++ [cur]) /\
  ((forall a, ~ In (a, a) R) -> NoDup (Path ++ [cur])).

Lemma walk_inv_hop : forall Path cur b,
  walk_inv Path cur -> In (cur, b) R -> ~ In b Path ->
  walk_inv (Path ++ [cur]) b.
Proof.
  intros Path cur b [Hhd [Hch Hnd]] Hcb Hb; repeat split.
  - destruct Path; [discriminate|]; exact Hhd.
  - apply chain_snoc; auto.
  - intro Hns; apply NoDup_app; auto.
    + constructor; auto; constructor.
    + intros x Hx [Hxb | []]; subst x.
      apply in_app_or in Hx as [Hx | [Hcb' | []]]; auto.
      subst cur; apply (Hns b); auto.
Qed.

Lemma scan_inv : forall Rs Path cur P' c' done,
  incl Rs R -> scan Rs t Path cur = (P', c', done) -> walk_inv Path cur ->
  (done = false -> walk_inv P' c') /\
  (done = true -> exists P0, P' = P0 ++ [t] /\ c' = t /\ walk_inv P0 t).
Proof.
  induction Rs as [|[a b] Rs IH]; simpl; intros Path cur P' c' done Hi H Hinv.
  - inversion H; subst; split; [auto | discriminate].
  - destruct ((a =? cur) && negb (existsb (Z.eqb b) Path)) eqn:E.
    + apply andb_true_iff in E as [Ea Eb].
      apply Z.eqb_eq in Ea; subst a; apply negb_true_iff in Eb.
      assert (Hb : ~ In b Path).
      { intro Hin; assert (existsb (Z.eqb b) Path = true) by
          (apply existsb_exists; exists b; split; auto; apply Z.eqb_refl).
        congruence. }
      assert (Hnext := walk_inv_hop Path cur b Hinv (Hi _ (or_introl eq_refl)) Hb).
      destruct (b =? t) eqn:Ebt.
      * apply Z.eqb_eq in Ebt; subst b; inversion H; subst.
        split; [discriminate|]; intros _; eauto.
      * eapply IH; eauto; intros x Hx; apply Hi; simpl; auto.
    + eapply IH; eauto; intros x Hx; apply Hi; simpl; auto.
Qed.

Lemma walk_result : forall fuel Path cur p,
  walk fuel R t Path cur = Some p -> walk_inv Path cur ->
  exists P0, p = P0 ++ [t] /\ walk_inv P0 t.
Proof.
  induction fuel as [|f IH]; simpl; intros Path cur p H Hinv; [discriminate|].
  destruct (scan R t Path cur) as [[P' c'] done] eqn:E.
  destruct (scan_inv R Path cur P' c' done (incl_refl _) E Hinv) as [Hf Ht].
  destruct done.
  - inversion H; subst; destruct (Ht eq_refl) as [P0 [-> [_ HP0]]]; eauto.
  - eapply IH; eauto.
Qed.

(** A [for] pass that neither moves nor completes repeats forever. *)
Lemma walk_stuck : forall fuel Path cur,
  scan R t Path cur = (Path, cur, false) -> walk fuel R t Path cur = None.
Proof.
  induction fuel; simpl; intros Path cur H; auto.
  rewrite H; auto.
Qed.
End Walk.

(** ** Claims on findPath *)

(** C5 (as amended): a path returned by [findPath] starts at [start], ends
    at [target], and each two consecutive nodes form a pair of [R]; when [R]
    contains no self-pair [(a,a)], no node occurs twice in it. *)
Theorem findPath_valid : forall fuel R s t p,
  findPath fuel R s t = Some (PathFound p) ->
  hd_error p = Some s /\ hd_error (rev p) = Some t /\ chain R p /\
  ((forall a, ~ In (a, a) R) -> NoDup p).
Proof.
  intros fuel R s t p H; unfold findPath in H.
  assert (Hend : forall P0, walk_inv R s P0 t -> p = P0 ++ [t] ->
    hd_error p = Some s /\ hd_error (rev p) = Some t /\ chain R p /\
    ((forall a, ~ In (a, a) R) -> NoDup p)).
  { intros P0 [Hhd [Hch Hnd]] ->; repeat split; auto.
    - destruct P0; [discriminate|]; exact Hhd.
    - rewrite rev_app_distr; reflexivity. }
  destruct (existsb (pair_eqb (s, t)) R) eqn:Ef; [|discriminate].
  apply existsb_pair_In in Ef.
  destruct (first_hop R s) as [n1|] eqn:Eh.
  - apply first_hop_In in Eh.
    assert (Hinit : walk_inv R s [s] n1).
    { repeat split; simpl; auto.
      intro Hns; constructor; [|constructor; [intros []|constructor]].
      intros [Hsn | []]; subst n1; apply (Hns s); auto. }
    destruct (n1 =? t) eqn:Et.
    + apply Z.eqb_eq in Et; subst n1; inversion H; subst.
      apply (Hend [s]); auto.
    + destruct (walk fuel R t [s] n1) as [q|] eqn:Ew; inversion H; subst.
      destruct (walk_result R s t fuel [s] n1 p Ew Hinit) as [P0 [-> HP0]].
      apply (Hend P0); auto.
  - exfalso; exact (first_hop_None R s t Eh Ef).
Qed.

Lemma findPath_valid_witness :
  NoDup [0;1;2].
Proof.
  refine (proj2 (proj2 (proj2 (findPath_valid 5 [(0,1);(1,2);(0,2)] 0 2 _ eq_refl))) _).
  intros a Hin; simpl in Hin.
  destruct Hin as [H | [H | [H | []]]]; inversion H; lia.
Defined.

(** C5 counterexample: with [R = [(0,0)]] the query [(0,0)] returns the path
    [0 => 0], in which node [0] occurs twice. *)
Lemma findPath_valid_counterexample :
  createTransClosure 1 [(0,0)] = Some [(0,0)] /\
  findPath 1 [(0,0)] 0 0 = Some (PathFound [0;0]) /\ ~ NoDup [0;0].
Proof.
  split; [reflexivity|]; split; [reflexivity|].
  intro H; inversion H; subst; simpl in *; tauto.
Qed.

(** C6 (code bug): the list [(0,1),(0,2)] is a closure returned by
    [createTransClosure] and contains [(0,2)], yet [findPath] on the query
    [(0,2)] steps first to [1], which has no outgoing pair, and the
    [while(!pathComplete)] loop never ends: no number of iterations
    completes the path. *)
Theorem findPath_dead_end_diverges :
  createTransClosure 1 [(0,1);(0,2)] = Some [(0,1);(0,2)] /\
  In (0,2) [(0,1);(0,2)] /\
  forall fuel, findPath fuel [(0,1);(0,2)] 0 2 = None.
Proof.
  split; [reflexivity|]; split; [simpl; auto|].
  intro fuel; unfold findPath; simpl.
  rewrite (walk_stuck [(0,1);(0,2)] 2 fuel [0] 1); reflexivity.
Qed.

(** C7: [findPath] returns [Unreachable] exactly when the pair
    [(start,target)] is not in [R]. *)
Theorem findPath_unreachable_iff : forall fuel R s t,
  findPath fuel R s t = Some Unreachable <-> ~ In (s, t) R.
Proof.
  intros fuel R s t; unfold findPath.
  destruct (existsb (pair_eqb (s, t)) R) eqn:Ef.
  - apply existsb_pair_In in Ef; split; [|tauto].
    destruct (first_hop R s); [destruct (_ =? t)|];
      try destruct (walk _ _ _ _ _); discriminate.
  - split; auto; intros _ Hin; apply existsb_pair_In in Hin; congruence.
Qed.

(** ** Claim on createRList *)

(** C9 (code bug): for [N = 1] and the matrix [[1]] the scan finds the one
    pair [(0,0)], but the buffer was allocated for [N*N-N = 0] pairs, so
    the pair is written out of bounds instead of being returned. *)
Theorem createRList_overflow :
  rlist_cells [[1]] 1 = [(0,0)] /\ createRList [[1]] 1 = None /\
  rlist_cells [[1;1];[1;1]] 2 = [(0,0);(0,1);(1,0);(1,1)] /\
  createRList [[1;1];[1;1]] 2 = None.
Proof. repeat split; reflexivity. Qed.

(** ** Further properties of createTransClosure *)

(** The one-step relation of an edge list. *)
Definition edge (E : list pair) (a b : Z) : Prop := In (a, b) E.

(** Every pair of the array stays derivable from [E] through a pass. *)
Lemma pass_sound : forall E R,
  (forall a b, In (a, b) R -> clos_trans Z (edge E) a b) ->
  forall a b, In (a, b) (fst (pass R)) -> clos_trans Z (edge E) a b.
Proof.
  intros E R HR; unfold pass.
  apply (fold_inv _ (fun (uv : pair) st => inner R uv st)
    (fun st => forall a b, In (a, b) (fst st) -> clos_trans Z (edge E) a b));
    [|exact HR].
  intros [u v] st1 Huv H1; unfold inner; simpl.
  apply (fold_inv _ (fun (yw : pair) st => step u v (fst yw) (snd yw) st)
    (fun st => forall a b, In (a, b) (fst st) -> clos_trans Z (edge E) a b));
    [|exact H1].
  intros [y w] [R2 b2] Hyw H2; simpl in *; unfold step.
  destruct ((y =? v) && negb (u =? w)) eqn:Ef; [|exact H2].
  apply andb_true_iff in Ef as [Eyv _]; apply Z.eqb_eq in Eyv; subst y.
  destruct (if negb (u =? v) && negb (v =? w) then _ else false); [exact H2|].
  simpl; intros a b Hab; apply in_app_or in Hab as [Hab | [Hq | []]]; auto.
  inversion Hq; subst; apply t_trans with v; auto.
Qed.

Lemma closure_loop_sound : forall fuel E R R',
  (forall a b, In (a, b) R -> clos_trans Z (edge E) a b) ->
  closure_loop fuel R = Some R' ->
  forall a b, In (a, b) R' -> clos_trans Z (edge E) a b.
Proof.
  induction fuel as [|f IH]; simpl; intros E R R' HR H; [discriminate|].
  pose proof (pass_sound E R HR) as Hs.
  destruct (pass R) as [R1 b]; destruct b.
  - exact (IH E R1 R' Hs H).
  - inversion H; subst; exact Hs.
Qed.

Lemma closure_members : forall fuel E R',
  createTransClosure fuel E = Some R' ->
  forall a c, In (a, c) R' <->
    (a <> c /\ clos_trans Z (edge E) a c) \/ (a = c /\ In (a, a) E).
Proof.
  intros fuel E R' H a c.
  destruct (closure_loop_ext _ _ _ H) as [added [HR' Hadd]].
  pose proof (closure_loop_fix _ _ _ H) as Hfix.
  assert (Hsub : forall p, In p E -> In p R')
    by (intros p Hp; rewrite HR'; apply in_or_app; auto).
  split.
  - intro Hin; destruct (Z.eq_dec a c) as [<- | Hne].
    + right; split; auto.
      rewrite HR' in Hin; apply in_app_or in Hin as [Hin | Hin]; auto.
      rewrite Forall_forall in Hadd; destruct (Hadd _ Hin); reflexivity.
    + left; split; auto.
      apply (closure_loop_sound fuel E E R'); auto.
      intros x y Hxy; apply t_step; exact Hxy.
  - intros [[Hne Hac] | [<- Haa]]; [|auto].
    apply clos_trans_tn1_iff in Hac.
    revert Hne; induction Hac as [c Hac | y c Hyc Hay IH]; intro Hne.
    + apply Hsub; exact Hac.
    + destruct (Z.eq_dec a y) as [<- | Hay'].
      * apply Hsub; exact Hyc.
      * exact (proj2 (proj2 (fix_props R' Hfix a y c (IH Hay') (Hsub _ Hyc) Hne))).
Qed.

(** X: the exact result of a terminating run.  A pair [(a,c)] is in the
    result of [createTransClosure E] iff either [a <> c] and [c] is reachable
    from [a] by one or more pairs of [E], or [a = c] and [(a,a)] is itself
    a pair of [E]. *)
Theorem closure_exact : forall fuel E R',
  createTransClosure fuel E = Some R' ->
  forall a c, In (a, c) R' <->
    (a <> c /\ clos_trans Z (edge E) a c) \/ (a = c /\ In (a, a) E).
Proof. exact closure_members. Qed.

Lemma closure_exact_witness :
  clos_trans Z (edge [(0,1);(1,2);(2,0)]) 1 0.
Proof.
  destruct (proj1 (closure_exact 5 [(0,1);(1,2);(2,0)] _ eq_refl 1 0)
              ltac:(simpl; tauto)) as [[_ H] | [H _]]; [exact H | discriminate].
Defined.

(** *** Termination when no pair is a self-pair *)

Definition no_selfpair (R : list pair) : Prop := forall a, ~ In (a, a) R.

Lemma no_selfpair_good : forall R, no_selfpair R -> good R.
Proof.
  intros R Hns a b c Hab Hbc _; split; intros ->; eapply Hns; eauto.
Qed.

Lemma pass_no_selfpair : forall R, no_selfpair R -> no_selfpair (fst (pass R)).
Proof.
  intros R Hns a Hin.
  destruct (pass_ext R) as [added [He Hadd]]; rewrite He in Hin.
  apply in_app_or in Hin as [Hin | Hin]; [exact (Hns a Hin)|].
  rewrite Forall_forall in Hadd; exact (Hadd _ Hin eq_refl).
Qed.

(** A pass over an array without the self-pair configurations appends, when
    it reports a change, a pair that was not there before. *)
Lemma pass_new : forall R R', good R -> pass R = (R', true) ->
  exists p, In p R' /\ ~ In p R.
Proof.
  intros R R' Hg HR.
  assert (Hinv : (exists added, fst (pass R) = R ++ added) /\
                 (snd (pass R) = true -> exists p, In p (fst (pass R)) /\ ~ In p R)).
  { unfold pass.
    apply (fold_inv _ (fun (uv : pair) st => inner R uv st)
      (fun st => (exists added, fst st = R ++ added) /\
                 (snd st = true -> exists p, In p (fst st) /\ ~ In p R)));
      [|split; [exists []; rewrite app_nil_r; auto | discriminate]].
    intros [u v] st1 Huv H1; unfold inner; simpl.
    apply (fold_inv _ (fun (yw : pair) st => step u v (fst yw) (snd yw) st)
      (fun st => (exists added, fst st = R ++ added) /\
                 (snd st = true -> exists p, In p (fst st) /\ ~ In p R)));
      [|exact H1].
    intros [y w] [R2 b2] Hyw [[a2 H2] H2']; simpl in *; subst R2; unfold step.
    destruct ((y =? v) && negb (u =? w)) eqn:Ef;
      [|split; [exists a2; reflexivity | exact H2']].
    apply andb_true_iff in Ef as [Eyv Euw].
    apply Z.eqb_eq in Eyv; subst y; apply negb_true_iff, Z.eqb_neq in Euw.
    destruct (Hg u v w Huv Hyw Euw) as [Huv' Hvw'].
    apply Z.eqb_neq in Huv', Hvw'; rewrite Huv', Hvw'; simpl.
    destruct (existsb (pair_eqb (u, w)) (R ++ a2)) eqn:Ex;
      [split; [exists a2; reflexivity | exact H2']|].
    split; [exists (a2 ++ [(u, w)]); rewrite app_assoc; reflexivity|].
    intros _; exists (u, w); split; [apply in_or_app; simpl; auto|].
    intro Hin; assert (Hin' : In (u, w) (R ++ a2)) by (apply in_or_app; auto).
    apply existsb_pair_In in Hin'; congruence. }
  rewrite HR in Hinv; simpl in Hinv; apply (proj2 Hinv); reflexivity.
Qed.

(** Pairs of [V x V] still missing from the array. *)
Definition missing (V : list Z) (R : list pair) : nat :=
  length (filter (fun p => negb (existsb (pair_eqb p) R)) (list_prod V V)).

Lemma filter_length_lt : forall (A : Type) (f g : A -> bool) l x,
  (forall y, g y = true -> f y = true) -> In x l -> f x = true -> g x = false ->
  (length (filter g l) < length (filter f l))%nat.
Proof.
  intros A f g l x Hgf; induction l as [|y l IH]; simpl; intros Hx Hf Hg;
    [contradiction|].
  assert (Hle : (length (filter g l) <= length (filter f l))%nat).
  { clear IH Hx; induction l as [|z l IHl]; simpl; auto.
    destruct (g z) eqn:Ez; [rewrite (Hgf z Ez); simpl; lia|].
    destruct (f z); simpl; lia. }
  destruct Hx as [<- | Hx].
  - rewrite Hf, Hg; simpl; lia.
  - specialize (IH Hx Hf Hg).
    destruct (g y) eqn:Ey; [rewrite (Hgf y Ey); simpl; lia|].
    destruct (f y); simpl; lia.
Qed.

Lemma missing_decreases : forall V R R' p,
  incl R R' -> In p R' -> ~ In p R -> In (fst p) V -> In (snd p) V ->
  (missing V R' < missing V R)%nat.
Proof.
  intros V R R' [a b] Hi Hp Hnp Ha Hb; unfold missing.
  apply filter_length_lt with (x := (a, b)).
  - intros q Hq; apply negb_true_iff in Hq; apply negb_true_iff.
    destruct (existsb (pair_eqb q) R) eqn:E; auto.
    apply existsb_pair_In, Hi, existsb_pair_In in E; congruence.
  - apply in_prod; auto.
  - apply negb_true_iff; destruct (existsb (pair_eqb (a, b)) R) eqn:E; auto.
    apply existsb_pair_In in E; contradiction.
  - apply negb_false_iff, existsb_pair_In; exact Hp.
Qed.

Lemma clos_trans_ends : forall R a b, clos_trans Z (edge R) a b ->
  In a (map fst R) /\ In b (map snd R).
Proof.
  intros R a b H; induction H as [a b H | a b c _ [Ha _] _ [_ Hc]]; auto.
  split; [apply (in_map fst R (a, b)) | apply (in_map snd R (a, b))]; exact H.
Qed.

Lemma closure_loop_terminates : forall V n R,
  no_selfpair R -> (forall a b, In (a, b) R -> In a V /\ In b V) ->
  (missing V R < n)%nat -> exists R', closure_loop n R = Some R'.
Proof.
  intros V n; induction n as [|n IH]; intros R Hns HV Hm; [lia|].
  simpl.
  pose proof (pass_no_selfpair R Hns) as Hns1.
  pose proof (pass_sound R R (fun a b H => t_step _ _ _ _ H)) as Hs.
  destruct (pass_ext R) as [added [He _]].
  destruct (pass R) as [R1 b] eqn:Ep; simpl in *; subst R1.
  destruct b; [|eauto].
  assert (HV1 : forall a c, In (a, c) (R ++ added) -> In a V /\ In c V).
  { intros a c Hac; destruct (clos_trans_ends R a c (Hs a c Hac)) as [Ha Hc].
    apply in_map_iff in Ha as [[a' x] [Ea Ha]]; apply in_map_iff in Hc as [[y c'] [Ec Hc]].
    simpl in Ea, Ec; subst; split; [apply (HV a x) | apply (HV y c)]; auto. }
  apply IH; auto.
  destruct (pass_new R _ (no_selfpair_good R Hns) Ep) as [[a c] [Hp Hnp]].
  destruct (HV1 a c Hp).
  pose proof (missing_decreases V R (R ++ added) (a, c)
                (incl_appl _ (incl_refl _)) Hp Hnp H H0); lia.
Qed.

Lemma no_selfpair_terminates : forall E,
  (forall a, ~ In (a, a) E) ->
  let V := map fst E ++ map snd E in
  exists R', createTransClosure (S (length V * length V)) E = Some R'.
Proof.
  intros E Hns V.
  apply (closure_loop_terminates V); auto.
  - intros a b Hab; split; apply in_or_app;
      [left; apply (in_map fst E (a, b)) | right; apply (in_map snd E (a, b))];
      exact Hab.
  - unfold missing; rewrite <- length_prod.
    apply Nat.lt_succ_r, filter_length_le.
Qed.

(** X: [createTransClosure] terminates on every edge list [E] without a
    self-pair, within [|V|^2 + 1] passes where [V] lists the start and end
    cities of the pairs of [E] ([|V| = 2 |E|]). *)
Theorem closure_terminates_without_selfpairs : forall E,
  (forall a, ~ In (a, a) E) ->
  let V := map fst E ++ map snd E in
  exists R', createTransClosure (S (length V * length V)) E = Some R'.
Proof. exact no_selfpair_terminates. Qed.

Lemma closure_terminates_without_selfpairs_witness :
  exists R', createTransClosure 17 [(0,1);(1,2)] = Some R'.
Proof.
  apply (closure_terminates_without_selfpairs [(0,1);(1,2)]).
  intros a Hin; simpl in Hin.
  destruct Hin as [H | [H | []]]; inversion H; lia.
Defined.

(** X: re-running [createTransClosure] on its own result stops after one
    pass and returns that result unchanged. *)
Theorem closure_idempotent : forall fuel E R',
  createTransClosure fuel E = Some R' ->
  forall fuel', createTransClosure (S fuel') R' = Some R'.
Proof.
  intros fuel E R' H fuel'; unfold createTransClosure; simpl.
  rewrite (closure_loop_fix _ _ _ H); reflexivity.
Qed.

Lemma closure_idempotent_witness :
  createTransClosure 1 [(0,1);(1,2);(2,0);(0,2);(1,0);(2,1)]
  = Some [(0,1);(1,2);(2,0);(0,2);(1,0);(2,1)].
Proof. exact (closure_idempotent 5 [(0,1);(1,2);(2,0)] _ eq_refl 0). Defined.

Lemma findPath_unreachable_found : forall fuel R s t,
  findPath fuel R s t = Some Unreachable <-> existsb (pair_eqb (s, t)) R = false.
Proof.
  intros fuel R s t; unfold findPath.
  destruct (existsb (pair_eqb (s, t)) R); split; auto; try discriminate.
  destruct (first_hop R s); [destruct (_ =? t)|];
    try destruct (walk _ _ _ _ _); discriminate.
Qed.

(** X: the route query of [main] on a terminated closure.  For [s <> t],
    [findPath] on the closure of [E] reports "No Path Exists!" exactly when
    [t] is not reachable from [s] through one or more pairs of [E]. *)
Theorem route_unreachable_iff_not_reachable : forall fuel E R' f s t,
  createTransClosure fuel E = Some R' -> s <> t ->
  (findPath f R' s t = Some Unreachable <-> ~ clos_trans Z (edge E) s t).
Proof.
  intros fuel E R' f s t H Hst.
  rewrite findPath_unreachable_found.
  assert (Hc := closure_members fuel E R' H s t).
  split.
  - intros Hf Hr.
    assert (Hin : In (s, t) R') by (apply Hc; left; auto).
    apply existsb_pair_In in Hin; congruence.
  - intro Hnr; destruct (existsb (pair_eqb (s, t)) R') eqn:Ex; auto.
    apply existsb_pair_In, Hc in Ex as [[_ Hr] | [Heq _]]; contradiction.
Qed.

Lemma route_unreachable_iff_not_reachable_witness :
  ~ clos_trans Z (edge [(0,1);(1,2)]) 2 0.
Proof.
  apply (route_unreachable_iff_not_reachable 5 [(0,1);(1,2)] [(0,1);(1,2);(0,2)] 5 2 0);
    [reflexivity | lia | reflexivity].
Defined.

(** ** Further properties of createRList *)

Lemma in_zrange : forall n i, In i (zrange n) <-> 0 <= i < n.
Proof.
  intros n i; unfold zrange; rewrite in_map_iff; split.
  - intros [k [<- Hk]]; apply in_seq in Hk; lia.
  - intro Hi; exists (Z.to_nat i); split; [lia|]; apply in_seq; lia.
Qed.


Lemma in_rlist_cells : forall A N i j,
  In (i, j) (rlist_cells A N) <-> 0 <= i < N /\ 0 <= j < N /\ get A i j = 1.
Proof.
  intros A N i j; unfold rlist_cells; rewrite in_flat_map; split.
  - intros [i' [Hi' Hin]]; apply in_flat_map in Hin as [j' [Hj' Hin]].
    destruct (get A i' j' =? 1) eqn:E; [|destruct Hin].
    destruct Hin as [Hq | []]; inversion Hq; subst.
    apply in_zrange in Hi', Hj'; apply Z.eqb_eq in E; auto.
  - intros [Hi [Hj Hg]]; exists i; split; [apply in_zrange; auto|].
    apply in_flat_map; exists j; split; [apply in_zrange; auto|].
    rewrite (proj2 (Z.eqb_eq _ _) Hg); simpl; auto.
Qed.

(** Row-major order on cells. *)
Definition cell_lt (p q : pair) : Prop :=
  fst p < fst q \/ (fst p = fst q /\ snd p < snd q).

Lemma StronglySorted_app_iff : forall (T : Type) (Rel : T -> T -> Prop) l1 l2,
  StronglySorted Rel l1 -> StronglySorted Rel l2 ->
  (forall x y, In x l1 -> In y l2 -> Rel x y) -> StronglySorted Rel (l1 ++ l2).
Proof.
  intros T Rel l1 l2 H1; induction H1 as [|x l1 H1 IH Hx]; simpl; intros H2 H12; auto.
  constructor.
  - apply IH; auto; intros; apply H12; simpl; auto.
  - apply Forall_app; split; auto.
    apply Forall_forall; intros y Hy; apply H12; simpl; auto.
Qed.

Lemma StronglySorted_flat_map : forall (S T : Type) (RS : S -> S -> Prop)
  (RT : T -> T -> Prop) (f : S -> list T) l,
  StronglySorted RS l -> (forall x, In x l -> StronglySorted RT (f x)) ->
  (forall x y a b, RS x y -> In a (f x) -> In b (f y) -> RT a b) ->
  StronglySorted RT (flat_map f l).
Proof.
  intros S T RS RT f l H; induction H as [|x l H IH Hx]; simpl; intros Hf Hxy;
    [constructor|].
  apply StronglySorted_app_iff; auto.
  intros a b Ha Hb; apply in_flat_map in Hb as [y [Hy Hb]].
  rewrite Forall_forall in Hx; eapply Hxy; eauto.
Qed.

Lemma zrange_sorted : forall n, StronglySorted Z.lt (zrange n).
Proof.
  intro n; unfold zrange; generalize 0%nat as s.
  induction (Z.to_nat n) as [|k IH]; intro s; simpl; constructor; auto.
  apply Forall_forall; intros x Hx; apply in_map_iff in Hx as [m [<- Hm]].
  apply in_seq in Hm; lia.
Qed.

Lemma rlist_cells_sorted : forall A N, StronglySorted cell_lt (rlist_cells A N).
Proof.
  intros A N; unfold rlist_cells.
  apply (StronglySorted_flat_map _ _ Z.lt); [apply zrange_sorted | |].
  - intros i _; apply (StronglySorted_flat_map _ _ Z.lt); [apply zrange_sorted | |].
    + intros j _; destruct (get A i j =? 1); repeat constructor.
    + intros j j' a b Hj Ha Hb.
      destruct (get A i j =? 1); [|destruct Ha];
        destruct (get A i j' =? 1); [|destruct Hb].
      destruct Ha as [<- | []], Hb as [<- | []]; right; simpl; auto.
  - intros i i' a b Hi Ha Hb.
    apply in_flat_map in Ha as [j [_ Ha]], Hb as [j' [_ Hb]].
    destruct (get A i j =? 1); [|destruct Ha];
      destruct (get A i' j' =? 1); [|destruct Hb].
    destruct Ha as [<- | []], Hb as [<- | []]; left; simpl; auto.
Qed.

(** X: when [createRList A N] succeeds, its list holds exactly the cells
    [(i,j)], [0 <= i, j < N], with [A[i][j] == 1], each once, in strictly
    increasing row-major order. *)
Theorem createRList_cells : forall A N R,
  createRList A N = Some R ->
  (forall i j, In (i, j) R <-> 0 <= i < N /\ 0 <= j < N /\ get A i j = 1) /\
  StronglySorted cell_lt R.
Proof.
  intros A N R H; unfold createRList in H.
  destruct (_ <=? _); inversion H; subst; clear H.
  split; [apply in_rlist_cells | apply rlist_cells_sorted].
Qed.

Lemma createRList_cells_witness :
  StronglySorted cell_lt [(0,1);(1,2)].
Proof.
  exact (proj2 (createRList_cells [[0;1;0];[0;0;1];[0;0;0]] 3 _ eq_refl)).
Defined.






(** ** Properties of printTransClosure and writeFile *)

Lemma str_app_assoc : forall s1 s2 s3 : string,
  (s1 ++ s2 ++ s3)%string = ((s1 ++ s2) ++ s3)%string.
Proof.
  induction s1 as [|c s1 IH]; intros; simpl; [reflexivity | rewrite IH; reflexivity].
Qed.

Lemma str_app_nil_r : forall s : string, (s ++ EmptyString)%string = s.
Proof. induction s as [|c s IH]; simpl; [reflexivity | rewrite IH; reflexivity]. Qed.

(** One line of the table: ["a -> b"]. *)
Definition line (p : pair) : string := (dec (fst p) ++ " -> " ++ dec (snd p))%string.

(** The pairs, one line each, separated by newlines. *)
Definition pair_lines (R : list pair) : string := String.concat nl (map line R).

Definition lines_after (R : list pair) : string :=
  fold_right (fun p acc => nl ++ line p ++ acc)%string EmptyString R.

Lemma table_body_even : forall R i, Nat.even i = true ->
  table_body (S (S i)) (flat R) = lines_after R.
Proof.
  induction R as [|[a b] R IH]; intros i Hi; [reflexivity|].
  simpl flat; simpl app.
  change (table_body (S (S i)) (a :: b :: flat R))
    with (((if Nat.even (S (S i)) && negb (Nat.eqb (S (S i)) 0) then nl
            else if negb (Nat.eqb (S (S i)) 0) then " -> " else EmptyString)
           ++ dec a ++ table_body (S (S (S i))) (b :: flat R))%string).
  change (table_body (S (S (S i))) (b :: flat R))
    with (((if Nat.even (S (S (S i))) && negb (Nat.eqb (S (S (S i))) 0) then nl
            else if negb (Nat.eqb (S (S (S i))) 0) then " -> " else EmptyString)
           ++ dec b ++ table_body (S (S (S (S i)))) (flat R))%string).
  rewrite (IH (S (S i))) by (simpl; exact Hi).
  replace (Nat.even (S (S i))) with true by (simpl; symmetry; exact Hi).
  replace (Nat.even (S (S (S i)))) with false
    by (rewrite Nat.even_succ, <- Nat.negb_even; simpl; rewrite Hi; reflexivity).
  simpl; unfold line; simpl; f_equal.
  rewrite <- !str_app_assoc; reflexivity.
Qed.

Lemma pair_lines_cons : forall p R,
  pair_lines (p :: R) = (line p ++ lines_after R)%string.
Proof.
  intros p R; revert p; induction R as [|q R IH]; intro p.
  - unfold pair_lines; simpl; rewrite str_app_nil_r; reflexivity.
  - unfold pair_lines in *; simpl map; simpl lines_after.
    change (String.concat nl (line p :: line q :: map line R))
      with (line p ++ nl ++ String.concat nl (line q :: map line R))%string.
    specialize (IH q); simpl map in IH; rewrite IH; reflexivity.
Qed.

Lemma table_body_lines : forall R, table_body 0 (flat R) = pair_lines R.
Proof.
  intros [|[a b] R]; [reflexivity|].
  rewrite pair_lines_cons, <- (table_body_even R 0 eq_refl).
  unfold line; simpl; rewrite <- !str_app_assoc; reflexivity.
Qed.

(** X: [printTransClosure] prints a blank line, the header ["R* Table"], then
    one line ["a -> b"] per pair of [R], in array order, and a final newline:
    the index arithmetic on the flat array ([i%2]) puts the two cities of a
    pair on one line. *)
Theorem printTransClosure_lines : forall R,
  printTransClosure R = (nl ++ "R* Table" ++ nl ++ pair_lines R ++ nl)%string.
Proof. intro R; unfold printTransClosure; rewrite table_body_lines; reflexivity. Qed.

(** X: when the output file can be opened, [writeFile] writes to
    ["out-" ++ inFileName] the header ["R* Table"], one line ["a -> b"] per
    pair of [R] in array order, and a blank line; otherwise it fails. *)
Theorem writeFile_contents : forall R name ok,
  writeFile R name ok =
  if ok then Some (("out-" ++ name)%string,
                   ("R* Table" ++ nl ++ pair_lines R ++ nl ++ nl)%string)
  else None.
Proof. intros; unfold writeFile; rewrite table_body_lines; reflexivity. Qed.

(** ** Properties of readFromFile *)

(** The bytes of a cell written as ['0'+a] followed by one separator byte. *)
Definition enc_cell (c : Z * Z) : list Z := [48 + fst c; snd c].

(** A file: the size digit, a separator, then the rows of cells. *)
Definition enc_file (N sep0 : Z) (Ac : list (list (Z * Z))) : list Z :=
  [48 + N; sep0] ++ concat (map (flat_map enc_cell) Ac).

Lemma read_row_enc : forall row rest,
  read_row (length row) (flat_map enc_cell row ++ rest) = (map fst row, rest).
Proof.
  induction row as [|[a sp] row IH]; intro rest; [reflexivity|].
  cbn -[Z.add Z.sub].
  rewrite IH; replace (48 + a - 48) with a by lia; reflexivity.
Qed.

Lemma read_rows_enc : forall n Ac rest,
  Forall (fun row => length row = n) Ac ->
  read_rows (length Ac) n (concat (map (flat_map enc_cell) Ac) ++ rest)
  = (map (map fst) Ac, rest).
Proof.
  intros n Ac rest H; revert rest; induction H as [|row Ac Hrow _ IH]; intro rest;
    [reflexivity|].
  simpl; rewrite <- app_assoc.
  pose proof (read_row_enc row (concat (map (flat_map enc_cell) Ac) ++ rest)) as E.
  rewrite Hrow in E; rewrite E, IH; reflexivity.
Qed.

(** X: reading back a matrix file.  For [0 <= N], a file made of the byte
    ['0'+N], any byte, and then [N] rows of [N] cells, each cell a byte
    ['0'+a] followed by any separator byte, possibly followed by more bytes,
    is read by [readFromFile] as the size [N] and the matrix of the [a]s. *)
Theorem readFromFile_roundtrip : forall N sep0 Ac rest,
  0 <= N -> length Ac = Z.to_nat N ->
  Forall (fun row => length row = Z.to_nat N) Ac ->
  readFromFile (Some (enc_file N sep0 Ac ++ rest)) = Some (N, map (map fst) Ac).
Proof.
  intros N sep0 Ac rest HN Hlen Hrows; unfold readFromFile, enc_file; cbn -[Z.add Z.sub].
  replace (48 + N - 48) with N by lia.
  rewrite <- Hlen at 1; rewrite read_rows_enc; auto.
Qed.

Lemma readFromFile_roundtrip_witness :
  readFromFile (Some [51;10; 48;32;49;32;48;10; 48;32;48;32;49;10; 48;32;48;32;48;10])
  = Some (3, [[0;1;0];[0;0;1];[0;0;0]]).
Proof.
  exact (readFromFile_roundtrip 3 10
           [[(0,32);(1,32);(0,10)];[(0,32);(0,32);(1,10)];[(0,32);(0,32);(0,10)]] []
           ltac:(lia) eq_refl
           ltac:(repeat constructor)).
Defined.





(** ** main: route queries outside the matrix *)

Lemma createRList_Some : forall A N E, createRList A N = Some E -> E = rlist_cells A N.
Proof.
  intros A N E H; unfold createRList in H; destruct (_ <=? _); inversion H; auto.
Qed.

(** X: in [main], the route [-r] is parsed as [startCity = rvalue[0]-'0'] and
    [targetCity = rvalue[2]-'0'].  When either city lies outside [0, N) (for
    instance ["12,3"] gives the target [','-'0' = -4]), [findPath] on the
    closure of the matrix's pair list prints "No Path Exists!". *)
Theorem route_out_of_range_unreachable : forall A N E fuel R' f rvalue s t,
  createRList A N = Some E -> createTransClosure fuel E = Some R' ->
  parse_route rvalue = (s, t) ->
  (s < 0 \/ N <= s \/ t < 0 \/ N <= t) ->
  findPath f R' s t = Some Unreachable.
Proof.
  intros A N E fuel R' f rvalue s t HE HR _ Hout.
  apply createRList_Some in HE; subst E.
  apply findPath_unreachable_found.
  destruct (existsb (pair_eqb (s, t)) R') eqn:Ex; auto; exfalso.
  apply existsb_pair_In in Ex.
  apply (closure_members fuel _ R' HR) in Ex as [[_ Hst] | [<- Hss]].
  - destruct (clos_trans_ends _ _ _ Hst) as [Hs Ht].
    apply in_map_iff in Hs as [[s' x] [Es Hs]]; apply in_map_iff in Ht as [[y t'] [Et Ht]].
    simpl in Es, Et; subst s' t'.
    apply in_rlist_cells in Hs as [Hs _]; apply in_rlist_cells in Ht as [_ [Ht _]]; lia.
  - apply in_rlist_cells in Hss; lia.
Qed.

Lemma route_out_of_range_unreachable_witness :
  parse_route [49; 50; 44; 51] = (1, -4) /\
  findPath 5 [(0,1);(1,0)] 1 (-4) = Some Unreachable.
Proof.
  split; [reflexivity|].
  apply (route_out_of_range_unreachable [[0;1];[1;0]] 2 [(0,1);(1,0)] 5
           [(0,1);(1,0)] 5 [49; 50; 44; 51]); [reflexivity | reflexivity | reflexivity | lia].
Defined.


